(** * A shallow embedding of [src/src/api.rs] (sqlite-loadable-rs)

    The safe wrappers around the sqlite3 C API: value type resolution, the
    [Value] accessor, the result setters, and the column-affinity resolver.

    Conventions of the model.
    - A Rust [&str] or [&[u8]] is its byte sequence, a [list ascii]
      ([ascii] is an 8-bit byte).  [text.len()] is the list length.
    - A raw [*mut sqlite3_value] or [*mut sqlite3_context] is an address [Z].
    - The host (sqlite3) is observed through the calls the wrappers make on
      it: every [sqlite3ext_result_*] call is appended to a trace, and the
      wrappers run in a small state/error monad over that trace.
    - A Rust panic ([unreachable!()]) is the [Panics] outcome. *)

From Stdlib Require Import ZArith NArith Bool List Ascii String Lia.
Import ListNotations.
Open Scope Z_scope.

(** ** Bytes and strings *)

Definition u8 := ascii.
Definition str := list u8.

(** A Rust string literal, as its bytes. *)
Definition lit (s : string) : str := list_ascii_of_string s.

Definition byte_val (c : u8) : Z := Z.of_N (N_of_ascii c).

Definition nul : u8 := ascii_of_N 0.

(** ** Value types: [enum ValueType] and [fn value_type] *)

Module ValueType.
Inductive t := Text | Integer | Float | Blob | Null.

Definition eqb (a b : t) : bool :=
  match a, b with
  | Text, Text | Integer, Integer | Float, Float | Blob, Blob | Null, Null => true
  | _, _ => false
  end.
End ValueType.

(** The host's type codes, from [sqlite3.h]. *)
Definition SQLITE_INTEGER : Z := 1.
Definition SQLITE_FLOAT : Z := 2.
Definition SQLITE_TEXT : Z := 3.
Definition SQLITE_BLOB : Z := 4.
Definition SQLITE_NULL : Z := 5.

(** [x as u32] on a [c_int]. *)
Definition as_u32 (x : Z) : Z := x mod 2 ^ 32.

(** The outcome of code that may panic. *)
Inductive panicking (A : Type) := Returns (a : A) | Panics.
Arguments Returns {A} a.
Arguments Panics {A}.

Definition ptr := Z.

(** What the host answers to [sqlite3ext_value_type] for each value handle. *)
Definition Host := ptr -> Z.

(** [match raw_type as u32 { SQLITE_TEXT => .., ..., _ => unreachable!() }] *)
Definition value_type_of_raw (raw_type : Z) : panicking ValueType.t :=
  let r := as_u32 raw_type in
  if r =? SQLITE_TEXT then Returns ValueType.Text
  else if r =? SQLITE_INTEGER then Returns ValueType.Integer
  else if r =? SQLITE_FLOAT then Returns ValueType.Float
  else if r =? SQLITE_BLOB then Returns ValueType.Blob
  else if r =? SQLITE_NULL then Returns ValueType.Null
  else Panics.

Definition value_type (host : Host) (value : ptr) : panicking ValueType.t :=
  value_type_of_raw (host value).

(** ** [struct Value] *)

Module Value.
Record t := mk { value : ptr; value_type : ValueType.t }.
End Value.

(** [Value::from] *)
Definition Value_from (host : Host) (value : ptr) : panicking Value.t :=
  match value_type host value with
  | Returns vt => Returns (Value.mk value vt)
  | Panics => Panics
  end.

(** [Value::at]: [values.get(at)?] returns [None] before any host call. *)
Definition Value_at (host : Host) (values : list ptr) (at' : nat)
  : panicking (option Value.t) :=
  match nth_error values at' with
  | None => Returns None
  | Some value =>
      match value_type host value with
      | Returns vt => Returns (Some (Value.mk value vt))
      | Panics => Panics
      end
  end.

(** ** Errors *)

(** [std::ffi::NulError]: the position of the first nul and the bytes. *)
Record NulError := mkNulError { nul_position : nat; nul_bytes : str }.

(** Modelled from the spec: [crate::Error] is defined outside [src/].  Only
    the two ways [api.rs] builds one are needed: the [From<NulError>]
    conversion of [?] (the spec's NulByteInSource) and
    [Error::new_message] (used for the spec's LengthOverflow), plus opaque
    caller-supplied errors. *)
Inductive Error :=
| Error_Nul (e : NulError)
| Error_Message (msg : string)
| Error_Other (code : Z).

Definition is_NulByteInSource (e : Error) : bool :=
  match e with Error_Nul _ => true | _ => false end.

Definition LengthOverflow : Error := Error_Message "i32 overflow, string to large".

Inductive result (A E : Type) := Ok (a : A) | Err (e : E).
Arguments Ok {A E} a.
Arguments Err {A E} e.

Definition is_ok {A E} (r : result A E) : bool :=
  match r with Ok _ => true | Err _ => false end.

(** [Value::notnull_or] *)
Definition Value_notnull_or (self : Value.t) (error : Error) : result Value.t Error :=
  if negb (ValueType.eqb (Value.value_type self) ValueType.Null) then Ok self
  else Err error.

(** [Value::notnull_or_else]: [err] is the [FnOnce() -> Error]. *)
Definition Value_notnull_or_else (self : Value.t) (err : unit -> Error)
  : result Value.t Error :=
  if negb (ValueType.eqb (Value.value_type self) ValueType.Null) then Ok self
  else Err (err tt).

(** ** Floating-point values

    [f64] values are kept as the decimal literal [str::parse::<f64>] read:
    the exact value [(-1)^neg * mantissa * 10^exp10] before its rounding to
    binary64, infinities and NaN.  Rounding is not modelled. *)
Inductive f64 :=
| F64_Finite (neg : bool) (mantissa : Z) (exp10 : Z)
| F64_Inf (neg : bool)
| F64_NaN.

(** ** The host calls the result setters make *)

(** The destructors [api.rs] hands to the host. *)
Inductive Destructor := result_text_destructor | pointer_destroy.

Inductive HostCall :=
| Call_result_text (context : ptr) (buf : str) (n : Z) (d : option Destructor)
| Call_result_int (context : ptr) (i : Z)
| Call_result_int64 (context : ptr) (i : Z)
| Call_result_double (context : ptr) (d : f64)
| Call_result_blob (context : ptr) (blob : str) (len : Z)
| Call_result_null (context : ptr)
| Call_result_error (context : ptr) (msg : str) (n : Z)
| Call_result_error_code (context : ptr) (code : Z).

(** The state/error monad: the host trace is threaded, [crate::Result] is
    the error side. *)
Definition M (A : Type) := list HostCall -> list HostCall * result A Error.

Definition ret {A} (a : A) : M A := fun tr => (tr, Ok a).

Definition bind {A B} (m : M A) (k : A -> M B) : M B :=
  fun tr =>
    match m tr with
    | (tr', Ok a) => k a tr'
    | (tr', Err e) => (tr', Err e)
    end.

Notation "x <- m ;; k" := (bind m (fun x => k)) (at level 61, m at next level, right associativity).

(** The [?] operator on a [Result]. *)
Definition try_ {A} (r : result A Error) : M A :=
  fun tr => (tr, r).

Definition map_err {A E F} (f : E -> F) (r : result A E) : result A F :=
  match r with Ok a => Ok a | Err e => Err (f e) end.

(** One [sqlite3ext_result_*] call. *)
Definition host_call (c : HostCall) : M unit := fun tr => (tr ++ [c], Ok tt).

(** ** Conversions *)

(** [CString::new(bytes)]: fails at the first nul byte. *)
Fixpoint find_nul (s : str) (i : nat) : option nat :=
  match s with
  | [] => None
  | c :: r => if Ascii.eqb c nul then Some i else find_nul r (S i)
  end.

Definition CString_new (bytes : str) : result str NulError :=
  match find_nul bytes 0 with
  | Some i => Err (mkNulError i bytes)
  | None => Ok bytes
  end.

Definition I32_MAX : Z := 2 ^ 31 - 1.

(** [usize::try_into::<i32>()] on a length. *)
Definition usize_try_into_i32 (n : Z) : result Z unit :=
  if n <=? I32_MAX then Ok n else Err tt.

(** [n as c_int] / [n as i32]: the low 32 bits, read as signed. *)
Definition as_c_int (n : Z) : Z :=
  let m := n mod 2 ^ 32 in
  if m <? 2 ^ 31 then m else m - 2 ^ 32.

Definition Error_new_message (msg : string) : Error := Error_Message msg.

(** ** Result setters *)

(** [result_text] *)
Definition result_text (context : ptr) (text : str) : M unit :=
  s <- try_ (map_err Error_Nul (CString_new text)) ;;
  n <- try_ (map_err (fun _ => Error_new_message "i32 overflow, string to large")
                     (usize_try_into_i32 (Z.of_nat (List.length text)))) ;;
  _ <- host_call (Call_result_text context s n (Some result_text_destructor)) ;;
  ret tt.

(** [result_int] *)
Definition result_int (context : ptr) (i : Z) : M unit :=
  host_call (Call_result_int context i).

(** [result_int64] *)
Definition result_int64 (context : ptr) (i : Z) : M unit :=
  host_call (Call_result_int64 context i).

(** [result_double] *)
Definition result_double (context : ptr) (i : f64) : M unit :=
  host_call (Call_result_double context i).

(** [result_blob]: [let len = blob.len() as c_int;] *)
Definition result_blob (context : ptr) (blob : str) : M unit :=
  let len := as_c_int (Z.of_nat (List.length blob)) in
  host_call (Call_result_blob context blob len).

(** [result_null] *)
Definition result_null (context : ptr) : M unit :=
  host_call (Call_result_null context).

(** [result_error]: [let n = text.len() as i32;] *)
Definition result_error (context : ptr) (text : str) : M unit :=
  s <- try_ (map_err Error_Nul (CString_new text)) ;;
  let n := as_c_int (Z.of_nat (List.length text)) in
  _ <- host_call (Call_result_error context s n) ;;
  ret tt.

(** [result_error_code] *)
Definition result_error_code (context : ptr) (code : Z) : M unit :=
  host_call (Call_result_error_code context code).

(** [result_bool] *)
Definition result_bool (context : ptr) (value : bool) : M unit :=
  if value then result_int context 1 else result_int context 0.

(** ** [str::parse] for [i32], [i64] and [f64] (Rust's [core]) *)

Definition is_digit (c : u8) : bool := (48 <=? byte_val c) && (byte_val c <=? 57).
Definition digit_val (c : u8) : Z := byte_val c - 48.
Definition is_plus (c : u8) : bool := Ascii.eqb c "+"%char.
Definition is_minus (c : u8) : bool := Ascii.eqb c "-"%char.

(** The accumulation loop of [from_str_radix] (radix 10); [None] on a byte
    that is not a digit. *)
Fixpoint digits_value (acc : Z) (s : str) : option Z :=
  match s with
  | [] => Some acc
  | c :: r => if is_digit c then digits_value (acc * 10 + digit_val c) r else None
  end.

(** [from_str_radix] for a signed type with range [[min, max]]: an empty
    string or a lone sign is an error; the sign is stripped; the checked
    arithmetic fails exactly when the exact value leaves the range. *)
Definition parse_int (min max : Z) (src : str) : option Z :=
  match src with
  | [] => None
  | c :: rest =>
      if (is_plus c || is_minus c) && (match rest with [] => true | _ => false end)
      then None
      else
        let '(is_positive, digits) :=
          if is_plus c then (true, rest)
          else if is_minus c then (false, rest)
          else (true, src) in
        match digits_value 0 digits with
        | None => None
        | Some v =>
            let v := if is_positive then v else - v in
            if (min <=? v) && (v <=? max) then Some v else None
        end
  end.

(** [value.parse::<i32>()] and [value.parse::<i64>()] *)
Definition parse_i32 (s : str) : option Z := parse_int (- 2 ^ 31) (2 ^ 31 - 1) s.
Definition parse_i64 (s : str) : option Z := parse_int (- 2 ^ 63) (2 ^ 63 - 1) s.

(** The digit loop of [dec2flt]: the value read, the number of digits, and
    the rest of the input. *)
Fixpoint take_digits (s : str) (acc : Z) (n : Z) : Z * Z * str :=
  match s with
  | c :: r => if is_digit c then take_digits r (acc * 10 + digit_val c) (n + 1)
              else (acc, n, s)
  | [] => (acc, n, [])
  end.

Definition to_ascii_lowercase (c : u8) : u8 :=
  let n := N_of_ascii c in
  if (65 <=? n)%N && (n <=? 90)%N then ascii_of_N (n + 32) else c.

(** [dec2flt]'s [parse_scientific]: an optional sign and at least one digit. *)
Definition parse_scientific (s : str) : option (Z * str) :=
  let '(neg, s) :=
    match s with
    | c :: r => if is_minus c then (true, r) else if is_plus c then (false, r) else (false, s)
    | [] => (false, [])
    end in
  match s with
  | c :: _ =>
      if is_digit c then
        let '(v, _, rest) := take_digits s 0 0 in
        Some (if neg then - v else v, rest)
      else None
  | [] => None
  end.

(** [dec2flt]'s [parse_number]: [digits [. digits] [e exponent]], at least one
    digit in the mantissa, the whole input consumed. *)
Definition parse_number (negative : bool) (s : str) : option f64 :=
  let '(int_mant, n_int, s1) := take_digits s 0 0 in
  let '(mant, n_frac, s2) :=
    match s1 with
    | c :: r => if Ascii.eqb c "."%char then take_digits r int_mant 0 else (int_mant, 0, s1)
    | [] => (int_mant, 0, s1)
    end in
  if n_int + n_frac =? 0 then None
  else
    let exp :=
      match s2 with
      | c :: r =>
          if Ascii.eqb c "e"%char || Ascii.eqb c "E"%char then parse_scientific r
          else Some (0, s2)
      | [] => Some (0, [])
      end in
    match exp with
    | Some (e, []) => Some (F64_Finite negative mant (e - n_frac))
    | _ => None
    end.

Definition eq_ignore_ascii_case (s p : str) : bool :=
  (List.length s =? List.length p)%nat
  && forallb (fun '(a, b) => Ascii.eqb (to_ascii_lowercase a) (to_ascii_lowercase b))
             (combine s p).

(** [dec2flt]'s [parse_inf_nan] *)
Definition parse_inf_nan (s : str) (negative : bool) : option f64 :=
  if eq_ignore_ascii_case s (lit "nan") then Some F64_NaN
  else if eq_ignore_ascii_case s (lit "inf") || eq_ignore_ascii_case s (lit "infinity")
  then Some (F64_Inf negative)
  else None.

(** [value.parse::<f64>()] *)
Definition parse_f64 (s : str) : option f64 :=
  match s with
  | [] => None
  | c :: rest =>
      let negative := is_minus c in
      let s := if is_minus c || is_plus c then rest else s in
      match s with
      | [] => None
      | _ =>
          match parse_number negative s with
          | Some v => Some v
          | None => parse_inf_nan s negative
          end
      end
  end.

(** ** [str] helpers used by the affinity resolver

    A [str] is the list of its UTF-8 bytes.  [trim] strips the characters of
    [char::is_whitespace] (Unicode White_Space) from both ends, matching their
    UTF-8 encodings: the ASCII ones (tab, LF, VT, FF, CR, space), U+0085 and
    U+00A0 (two bytes, C2 85 and C2 A0), U+1680, U+2000 to U+200A, U+2028,
    U+2029, U+202F, U+205F and U+3000 (three bytes).  On a valid UTF-8 string
    a whole encoding at either end is a whole character, so this is
    [str::trim].

    [to_lowercase] maps ASCII capitals to small letters and keeps the other
    bytes.  Rust also lowercases non-ASCII characters; the only ones whose
    lowercase holds an ASCII letter are U+212A (to "k") and U+0130 (to "i"
    followed by U+0307).  None of the words tested below holds a "k", and
    their one "i" (in "int") is followed by an ASCII letter, so every
    [contains] test, and the [is_empty] test, gives the same answer on this
    model as on Rust's [to_lowercase]. *)

(** [char::is_whitespace] on an ASCII byte *)
Definition is_whitespace (c : u8) : bool :=
  let n := byte_val c in ((9 <=? n) && (n <=? 13)) || (n =? 32).

Definition byte_is (c : u8) (n : Z) : bool := byte_val c =? n.

(** [c c1] encodes U+0085 or U+00A0. *)
Definition is_ws2 (c c1 : u8) : bool :=
  byte_is c 194 && (byte_is c1 133 || byte_is c1 160).

(** [c c1 c2] encodes U+1680, U+2000..U+200A, U+2028, U+2029, U+202F,
    U+205F or U+3000. *)
Definition is_ws3 (c c1 c2 : u8) : bool :=
  (byte_is c 225 && byte_is c1 154 && byte_is c2 128)
  || (byte_is c 226 && byte_is c1 128
      && (((128 <=? byte_val c2) && (byte_val c2 <=? 138))
          || byte_is c2 168 || byte_is c2 169 || byte_is c2 175))
  || (byte_is c 226 && byte_is c1 129 && byte_is c2 159)
  || (byte_is c 227 && byte_is c1 128 && byte_is c2 128).

(** [str::trim_start] *)
Fixpoint trim_start (s : str) : str :=
  match s with
  | c :: r =>
      if is_whitespace c then trim_start r
      else match r with
           | c1 :: r1 =>
               if is_ws2 c c1 then trim_start r1
               else match r1 with
                    | c2 :: r2 => if is_ws3 c c1 c2 then trim_start r2 else s
                    | [] => s
                    end
           | [] => s
           end
  | [] => []
  end.

(** [trim_start] read on the reversed bytes: strips whitespace encodings
    from the end of [rev s]. *)
Fixpoint trim_back (s : str) : str :=
  match s with
  | c :: r =>
      if is_whitespace c then trim_back r
      else match r with
           | c1 :: r1 =>
               if is_ws2 c1 c then trim_back r1
               else match r1 with
                    | c2 :: r2 => if is_ws3 c2 c1 c then trim_back r2 else s
                    | [] => s
                    end
           | [] => s
           end
  | [] => []
  end.

(** [str::trim_end] *)
Definition trim_end (s : str) : str := rev (trim_back (rev s)).

(** [str::trim] *)
Definition trim (s : str) : str := trim_end (trim_start s).

(** [str::to_lowercase] *)
Definition to_lowercase (s : str) : str := map to_ascii_lowercase s.

Fixpoint starts_with (s p : str) {struct p} : bool :=
  match p, s with
  | [], _ => true
  | _ :: _, [] => false
  | d :: p', c :: s' => Ascii.eqb c d && starts_with s' p'
  end.

(** [str::contains] *)
Fixpoint contains (s p : str) : bool :=
  match s with
  | [] => starts_with [] p
  | _ :: s' => starts_with s p || contains s' p
  end.

Definition is_empty (s : str) : bool :=
  match s with [] => true | _ => false end.

(** ** [enum ColumnAffinity] *)

Module ColumnAffinity.
Inductive t := Text | Integer | Real | Blob | Numeric.

(** [ColumnAffinity::from_declared_type] *)
Definition from_declared_type (declared_type : str) : t :=
  let lowered := to_lowercase (trim declared_type) in
  if contains lowered (lit "int") then Integer
  else if contains lowered (lit "char") || contains lowered (lit "clob")
          || contains lowered (lit "text") then Text
  else if contains lowered (lit "blob") || is_empty lowered then Blob
  else if contains lowered (lit "real") || contains lowered (lit "floa")
          || contains lowered (lit "doub") then Real
  else Numeric.

(** [ColumnAffinity::result_text] *)
Definition result_text (self : t) (context : ptr) (value : str) : M unit :=
  match self with
  | Numeric =>
      match parse_i32 value with
      | Some v => result_int context v
      | None =>
          match parse_i64 value with
          | Some v => result_int64 context v
          | None =>
              match parse_f64 value with
              | Some v => result_double context v
              | None => result_text context value
              end
          end
      end
  | Integer =>
      match parse_i32 value with
      | Some v => result_int context v
      | None =>
          match parse_i64 value with
          | Some v => result_int64 context v
          | None => result_text context value
          end
      end
  | Real =>
      match parse_f64 value with
      | Some v => result_double context v
      | None => result_text context value
      end
  | Blob | Text => result_text context value
  end.
End ColumnAffinity.

(** ** [enum ExtendedColumnAffinity] *)

Module ExtendedColumnAffinity.
Inductive t := Text | Integer | Real | Blob | Boolean | Json | Datetime | Date | Time | Numeric.

(** [ExtendedColumnAffinity::extended_column_affinity_from_type]: no [trim]. *)
Definition extended_column_affinity_from_type (declared_type : str) : t :=
  let lowered := to_lowercase declared_type in
  if contains lowered (lit "int") then Integer
  else if contains lowered (lit "char") || contains lowered (lit "clob")
          || contains lowered (lit "text") then Text
  else if contains lowered (lit "blob") || is_empty lowered then Blob
  else if contains lowered (lit "real") || contains lowered (lit "floa")
          || contains lowered (lit "doub") then Real
  else if contains lowered (lit "json") then Json
  else if contains lowered (lit "boolean") then Boolean
  else Numeric.
End ExtendedColumnAffinity.

(** ** Reading values: the host's value accessors *)

(** What sqlite3 answers for each value handle.  [vh_text] and [vh_blob]
    are the bytes readable from the pointer [sqlite3_value_text] and
    [sqlite3_value_blob] return, [None] when that pointer is NULL (sqlite3
    returns NULL for an SQL NULL, and [sqlite3_value_blob] also for a
    zero-length blob). *)
Record ValueHost := {
  vh_type : ptr -> Z;
  vh_text : ptr -> option str;
  vh_bytes : ptr -> Z;
  vh_blob : ptr -> option str
}.

(** Code that may panic or reach undefined behaviour (a null or dangling
    pointer dereferenced, a slice built over unowned memory). *)
Inductive run (A : Type) := Done (a : A) | Panic | Undefined.
Arguments Done {A} a.
Arguments Panic {A}.
Arguments Undefined {A}.

Definition run_of_panicking {A} (p : panicking A) : run A :=
  match p with Returns a => Done a | Panics => Panic end.

(** [crate::Error] together with the [From<Utf8Error>] conversion that
    [?] applies to [CStr::to_str]. *)
Inductive ErrorExt :=
| Err_base (e : Error)
| Err_utf8 (valid_up_to : nat).

(** [CStr::from_ptr]: the bytes up to the first nul; reading past the
    readable memory without finding one is undefined. *)
Fixpoint cstr_from_ptr (buf : str) : option str :=
  match buf with
  | [] => None
  | c :: r =>
      if Ascii.eqb c nul then Some []
      else match cstr_from_ptr r with Some s => Some (c :: s) | None => None end
  end.

Definition in_byte_range (c : u8) (lo hi : Z) : bool :=
  (lo <=? byte_val c) && (byte_val c <=? hi).

Definition is_cont (c : u8) : bool := in_byte_range c 128 191.

(** The width of the sequence a leading byte opens, and the range allowed
    for its second byte (Rust's [utf8_char_width] and the table of
    [run_utf8_validation]). *)
Definition lead_info (c : u8) : option (nat * Z * Z) :=
  if in_byte_range c 194 223 then Some (2%nat, 128, 191)
  else if in_byte_range c 224 224 then Some (3%nat, 160, 191)
  else if in_byte_range c 225 236 then Some (3%nat, 128, 191)
  else if in_byte_range c 237 237 then Some (3%nat, 128, 159)
  else if in_byte_range c 238 239 then Some (3%nat, 128, 191)
  else if in_byte_range c 240 240 then Some (4%nat, 144, 191)
  else if in_byte_range c 241 243 then Some (4%nat, 128, 191)
  else if in_byte_range c 244 244 then Some (4%nat, 128, 143)
  else None.

(** [core::str::from_utf8]'s validation: [None] when valid, [Some i] with
    [i] the [valid_up_to] of the error. *)
Fixpoint utf8_error_at (s : str) (i : nat) : option nat :=
  match s with
  | [] => None
  | c :: r =>
      if byte_val c <? 128 then utf8_error_at r (S i)
      else
        match lead_info c with
        | None => Some i
        | Some (w, lo, hi) =>
            match r with
            | c1 :: r1 =>
                if in_byte_range c1 lo hi then
                  if (w =? 2)%nat then utf8_error_at r1 (i + 2)
                  else
                    match r1 with
                    | c2 :: r2 =>
                        if is_cont c2 then
                          if (w =? 3)%nat then utf8_error_at r2 (i + 3)
                          else
                            match r2 with
                            | c3 :: r3 =>
                                if is_cont c3 then utf8_error_at r3 (i + 4) else Some i
                            | [] => Some i
                            end
                        else Some i
                    | [] => Some i
                    end
                else Some i
            | [] => Some i
            end
        end
  end.

(** [CStr::to_str] *)
Definition cstr_to_str (s : str) : result str ErrorExt :=
  match utf8_error_at s 0 with
  | None => Ok s
  | Some i => Err (Err_utf8 i)
  end.

(** [value_text]: no null check; [sqlite3ext_value_text] then [CStr::from_ptr]
    (undefined on a NULL pointer). *)
Definition value_text (vh : ValueHost) (value : ptr) : run (result str ErrorExt) :=
  match vh_text vh value with
  | None => Undefined
  | Some buf =>
      match cstr_from_ptr buf with
      | None => Undefined
      | Some s => Done (cstr_to_str s)
      end
  end.


(** [Value::text_or_else]: [value_text] on the wrapped handle, its error
    passed through the caller's [FnOnce(Error) -> Error]. *)
Definition Value_text_or_else (vh : ValueHost) (self : Value.t) (error : ErrorExt -> ErrorExt)
  : run (result str ErrorExt) :=
  match value_text vh (Value.value self) with
  | Done (Ok v) => Done (Ok v)
  | Done (Err err) => Done (Err (error err))
  | Panic => Panic
  | Undefined => Undefined
  end.

(** [n as usize] on a [c_int] (64-bit [usize]). *)
Definition as_usize (n : Z) : Z := n mod 2 ^ 64.

(** [value_blob]: [from_raw_parts(b, n as usize)], undefined on a NULL
    pointer (whatever [n]) and past the readable bytes. *)
Definition value_blob (vh : ValueHost) (value : ptr) : run str :=
  let n := vh_bytes vh value in
  match vh_blob vh value with
  | None => Undefined
  | Some buf =>
      if as_usize n <=? Z.of_nat (List.length buf)
      then Done (firstn (Z.to_nat (as_usize n)) buf)
      else Undefined
  end.

(** ** [mprintf] *)

Inductive MprintfError := Mprintf_Nul (e : NulError) | Mprintf_Oom.

(** [mprintf].  [sqlite3_mprintf] reads [cbase] as a printf format and is
    given no further argument: a conversion that takes one (%s, %d, %*d,
    ...) reads an argument that is not there, which is undefined behaviour;
    otherwise it answers the formatted copy, or NULL (0) when out of memory.
    How it reads a format is sqlite's C code, not this crate's, so it is the
    parameter [sqlite3_mprintf], answering [Undefined] on such formats. *)
Definition mprintf (sqlite3_mprintf : str -> run ptr) (base : str)
    : run (result ptr MprintfError) :=
  match CString_new base with
  | Err e => Done (Err (Mprintf_Nul e))
  | Ok cbase =>
      match sqlite3_mprintf cbase with
      | Done result => Done (if result =? 0 then Err Mprintf_Oom else Ok result)
      | Panic => Panic
      | Undefined => Undefined
      end
  end.

(** ** Result setters beyond the basic ones *)

(** Host calls of [result_subtype], beside the calls of the basic setters
    ([Base]). *)
Inductive HostCallExt :=
| Base (c : HostCall)
| Call_result_subtype (context : ptr) (subtype : Z).

Definition MX (A : Type) := list HostCallExt -> list HostCallExt * result A Error.

Definition retX {A} (a : A) : MX A := fun tr => (tr, Ok a).

Definition bindX {A B} (m : MX A) (k : A -> MX B) : MX B :=
  fun tr =>
    match m tr with
    | (tr', Ok a) => k a tr'
    | (tr', Err e) => (tr', Err e)
    end.

Notation "x <-- m ;; k" := (bindX m (fun x => k)) (at level 61, m at next level, right associativity).

(** A basic setter run inside [MX]: its calls are appended as [Base]. *)
Definition liftX {A} (m : M A) : MX A :=
  fun tr => let '(calls, r) := m [] in (tr ++ map Base calls, r).

(** [result_subtype]: [subtype.into()], a [u8] widened. *)
Definition result_subtype (context : ptr) (subtype : u8) : MX unit :=
  fun tr => (tr ++ [Call_result_subtype context (byte_val subtype)], Ok tt).

Section ResultJson.
(** [serde_json::Value] and its [to_string] come from the serde_json crate. *)
Variable JsonValue : Type.
Variable json_to_string : JsonValue -> str.

(** [result_json] *)
Definition result_json (context : ptr) (value : JsonValue) : MX unit :=
  _ <-- liftX (result_text context (json_to_string value)) ;;
  _ <-- result_subtype context "J"%char ;;
  retX tt.
End ResultJson.

(** ** Definitions used by the statements *)

(** The host's closed set of type codes. *)
Definition sqlite_type_tags : list Z :=
  [SQLITE_TEXT; SQLITE_INTEGER; SQLITE_FLOAT; SQLITE_BLOB; SQLITE_NULL].

(** sqlite3's contract: every value handle it passes has a type code in the
    closed set. *)
Definition host_tags_valid (host : Host) (values : list ptr) : Prop :=
  forall v, In v values -> In (host v) sqlite_type_tags.

(** A message of [2^31] bytes, one more than [i32] can count. *)
Definition huge_len : nat := Z.to_nat (2 ^ 31).
Definition huge_text : str := repeat "a"%char huge_len.

(** The tier table of [coerce_and_emit], written from the spec (section
    4.4): the numeric parses an affinity tries, in order, before the text
    fallback. *)
Definition isSome {A} (o : option A) : bool :=
  match o with Some _ => true | None => false end.

Inductive Tier := TierI32 | TierI64 | TierF64.

Definition spec_tier_table (a : ColumnAffinity.t) : list Tier :=
  match a with
  | ColumnAffinity.Numeric => [TierI32; TierI64; TierF64]
  | ColumnAffinity.Integer => [TierI32; TierI64]
  | ColumnAffinity.Real => [TierF64]
  | ColumnAffinity.Blob | ColumnAffinity.Text => []
  end.

Definition spec_try_tier (t : Tier) (context : ptr) (s : str) : option HostCall :=
  match t with
  | TierI32 => option_map (Call_result_int context) (parse_i32 s)
  | TierI64 => option_map (Call_result_int64 context) (parse_i64 s)
  | TierF64 => option_map (Call_result_double context) (parse_f64 s)
  end.

Definition spec_tier_accepts (t : Tier) (s : str) : bool :=
  match t with
  | TierI32 => isSome (parse_i32 s)
  | TierI64 => isSome (parse_i64 s)
  | TierF64 => isSome (parse_f64 s)
  end.

(** Try each tier in order; the first parse that succeeds emits its
    number, and text is the fallback. *)
Fixpoint spec_emit_by_tiers (ts : list Tier) (context : ptr) (s : str) : M unit :=
  match ts with
  | [] => result_text context s
  | t :: ts' =>
      match spec_try_tier t context s with
      | Some c => host_call c
      | None => spec_emit_by_tiers ts' context s
      end
  end.

Definition spec_numeric_tier_accepts (a : ColumnAffinity.t) (s : str) : bool :=
  existsb (fun t => spec_tier_accepts t s) (spec_tier_table a).

Definition is_double_call (c : HostCall) : bool :=
  match c with Call_result_double _ _ => true | _ => false end.

(** Case-insensitive substring search, written from the spec: a window of
    [s] equal to [p] up to ASCII case. *)
Definition eq_ci (c d : u8) : bool :=
  Ascii.eqb (to_ascii_lowercase c) (to_ascii_lowercase d).

Fixpoint starts_with_ci (s p : str) {struct p} : bool :=
  match p, s with
  | [], _ => true
  | _ :: _, [] => false
  | d :: p', c :: s' => eq_ci c d && starts_with_ci s' p'
  end.

Fixpoint contains_ci (s p : str) : bool :=
  match s with
  | [] => starts_with_ci [] p
  | _ :: s' => starts_with_ci s p || contains_ci s' p
  end.

(** [s] is made of whitespace characters only: nothing is left once its
    leading whitespace is stripped. *)
Definition all_whitespace (s : str) : bool := is_empty (trim_start s).

(** The precedence table of classify as claim C2 words it, with "s is
    empty" read on [s] itself. *)
Definition spec_classify_claim (s : str) : ColumnAffinity.t :=
  if contains_ci s (lit "int") then ColumnAffinity.Integer
  else if contains_ci s (lit "char") || contains_ci s (lit "clob")
          || contains_ci s (lit "text") then ColumnAffinity.Text
  else if contains_ci s (lit "blob") || is_empty s then ColumnAffinity.Blob
  else if contains_ci s (lit "real") || contains_ci s (lit "floa")
          || contains_ci s (lit "doub") then ColumnAffinity.Real
  else ColumnAffinity.Numeric.

(** The same table with "empty" read on the trimmed string: [s] is empty
    or all whitespace. *)
Definition spec_classify (s : str) : ColumnAffinity.t :=
  if contains_ci s (lit "int") then ColumnAffinity.Integer
  else if contains_ci s (lit "char") || contains_ci s (lit "clob")
          || contains_ci s (lit "text") then ColumnAffinity.Text
  else if contains_ci s (lit "blob") || all_whitespace s then ColumnAffinity.Blob
  else if contains_ci s (lit "real") || contains_ci s (lit "floa")
          || contains_ci s (lit "doub") then ColumnAffinity.Real
  else ColumnAffinity.Numeric.

(** The extended table with the emptiness test given as a flag. *)
Definition spec_extended_classify (s : str) (empty : bool) : ExtendedColumnAffinity.t :=
  if contains_ci s (lit "int") then ExtendedColumnAffinity.Integer
  else if contains_ci s (lit "char") || contains_ci s (lit "clob")
          || contains_ci s (lit "text") then ExtendedColumnAffinity.Text
  else if contains_ci s (lit "blob") || empty then ExtendedColumnAffinity.Blob
  else if contains_ci s (lit "real") || contains_ci s (lit "floa")
          || contains_ci s (lit "doub") then ExtendedColumnAffinity.Real
  else if contains_ci s (lit "json") then ExtendedColumnAffinity.Json
  else if contains_ci s (lit "boolean") then ExtendedColumnAffinity.Boolean
  else ExtendedColumnAffinity.Numeric.

(** A byte that can occur in a whitespace character: ASCII whitespace, or
    a non-ASCII byte. *)
Definition ws_byte (c : u8) : bool := is_whitespace c || (128 <=? byte_val c).

(** A pattern byte: no [ws_byte], and already lower case. *)
Definition pat_char_ok (d : u8) : bool :=
  negb (ws_byte d) && Ascii.eqb (to_ascii_lowercase d) d.

(** The UTF-8 encoding of one whitespace character. *)
Definition ws_enc (w : str) : Prop :=
  (exists c, w = [c] /\ is_whitespace c = true)
  \/ (exists c c1, w = [c; c1] /\ is_ws2 c c1 = true)
  \/ (exists c c1 c2, w = [c; c1; c2] /\ is_ws3 c c1 c2 = true).

(** A sequence of whitespace characters. *)
Inductive ws_chars : str -> Prop :=
| ws_chars_nil : ws_chars []
| ws_chars_cons (w s : str) : ws_enc w -> ws_chars s -> ws_chars (w ++ s).

(** U+00A0 NO-BREAK SPACE, a whitespace character outside ASCII. *)
Definition nbsp : str := [ascii_of_N 194; ascii_of_N 160].

(** A host whose every value has type [ty] and text [text]. *)
Definition demo_host (ty : Z) (text : option str) : ValueHost :=
  {| vh_type := fun _ => ty; vh_text := fun _ => text;
     vh_bytes := fun _ => 0; vh_blob := fun _ => None |}.

(** ** Lemmas on the conversions *)

Lemma huge_len_Z : Z.of_nat huge_len = 2 ^ 31.
Proof. unfold huge_len. rewrite Z2Nat.id; lia. Qed.

Lemma length_cons_Z (x : u8) (l : str) :
  Z.of_nat (List.length (x :: l)) = Z.of_nat (List.length l) + 1.
Proof. cbn [List.length]. lia. Qed.

Lemma nul_eqb (c : u8) : Ascii.eqb c nul = true <-> c = nul.
Proof. apply Ascii.eqb_eq. Qed.

Lemma find_nul_None (s : str) (i : nat) : find_nul s i = None <-> ~ In nul s.
Proof.
  revert i; induction s as [|c s IH]; intros i; simpl.
  - tauto.
  - destruct (Ascii.eqb c nul) eqn:E.
    + apply nul_eqb in E; subst. split; [discriminate | tauto].
    + rewrite IH. split.
      * intros H [H'|H']; [subst; rewrite (proj2 (nul_eqb nul)) in E; easy | tauto].
      * tauto.
Qed.

Lemma find_nul_cons_nul (r : str) (i : nat) : find_nul (nul :: r) i = Some i.
Proof. reflexivity. Qed.

Lemma find_nul_repeat (c : u8) (n i : nat) : c <> nul -> find_nul (repeat c n) i = None.
Proof.
  intros Hc. apply find_nul_None. intros H. apply repeat_spec in H. congruence.
Qed.

Lemma result_text_cases (context : ptr) (text : str) (tr : list HostCall) :
  result_text context text tr =
  match find_nul text 0 with
  | Some i => (tr, Err (Error_Nul (mkNulError i text)))
  | None =>
      if Z.of_nat (List.length text) <=? I32_MAX
      then (tr ++ [Call_result_text context text (Z.of_nat (List.length text))
                                    (Some result_text_destructor)], Ok tt)
      else (tr, Err LengthOverflow)
  end.
Proof.
  unfold result_text, bind, try_, CString_new, usize_try_into_i32, host_call, ret.
  destruct (find_nul text 0); simpl; [reflexivity|].
  destruct (Z.of_nat (List.length text) <=? I32_MAX); reflexivity.
Qed.

Lemma result_error_cases (context : ptr) (text : str) (tr : list HostCall) :
  result_error context text tr =
  match find_nul text 0 with
  | Some i => (tr, Err (Error_Nul (mkNulError i text)))
  | None =>
      (tr ++ [Call_result_error context text (as_c_int (Z.of_nat (List.length text)))], Ok tt)
  end.
Proof.
  unfold result_error, bind, try_, CString_new, host_call, ret.
  destruct (find_nul text 0); reflexivity.
Qed.

Lemma value_type_valid (host : Host) (v : ptr) :
  In (host v) sqlite_type_tags ->
  (host v = SQLITE_TEXT /\ value_type host v = Returns ValueType.Text) \/
  (host v = SQLITE_INTEGER /\ value_type host v = Returns ValueType.Integer) \/
  (host v = SQLITE_FLOAT /\ value_type host v = Returns ValueType.Float) \/
  (host v = SQLITE_BLOB /\ value_type host v = Returns ValueType.Blob) \/
  (host v = SQLITE_NULL /\ value_type host v = Returns ValueType.Null).
Proof.
  unfold value_type. simpl.
  intros [H|[H|[H|[H|[H|[]]]]]]; rewrite <- H; cbv; auto 8.
Qed.

Lemma value_type_valid_returns (host : Host) (v : ptr) :
  In (host v) sqlite_type_tags -> exists vt, value_type host v = Returns vt.
Proof.
  intros H. destruct (value_type_valid host v H) as [[_ E]|[[_ E]|[[_ E]|[[_ E]|[_ E]]]]];
    eexists; exact E.
Qed.

(** ** Claims on value types, [Value] and the result setters *)

(** C7: on every host type code of the closed set, [value_type] returns
    the matching [ValueType] variant (so the [unreachable!()] branch is not
    taken), and it depends only on the code the host reports. *)
Theorem value_type_closed_set (host : Host) (value : ptr) :
  In (host value) sqlite_type_tags ->
  ((host value = SQLITE_TEXT /\ value_type host value = Returns ValueType.Text) \/
   (host value = SQLITE_INTEGER /\ value_type host value = Returns ValueType.Integer) \/
   (host value = SQLITE_FLOAT /\ value_type host value = Returns ValueType.Float) \/
   (host value = SQLITE_BLOB /\ value_type host value = Returns ValueType.Blob) \/
   (host value = SQLITE_NULL /\ value_type host value = Returns ValueType.Null)) /\
  value_type host value <> Panics /\
  (forall (host' : Host) (value' : ptr),
      host' value' = host value -> value_type host' value' = value_type host value).
Proof.
  intros H. split; [apply value_type_valid, H|]. split.
  - destruct (value_type_valid_returns host value H) as [vt E]. rewrite E. discriminate.
  - intros host' value' E. unfold value_type. rewrite E. reflexivity.
Qed.

Lemma value_type_closed_set_witness :
  In ((fun _ : ptr => SQLITE_FLOAT) 0) sqlite_type_tags /\
  value_type (fun _ => SQLITE_FLOAT) 0 = Returns ValueType.Float.
Proof.
  split; [simpl; tauto|].
  destruct (value_type_closed_set (fun _ => SQLITE_FLOAT) 0) as [H _];
    [simpl; tauto|].
  destruct H as [[E _]|[[E _]|[[_ E]|[[E _]|[E _]]]]]; try discriminate E; exact E.
Defined.

(** C8: [Value::at] returns [None] exactly when the index is out of range,
    and otherwise [Some] of the [Value] built from the handle at that index
    with its resolved type; it never panics, given the host's contract that
    every handle's type code is in the closed set. *)
Theorem Value_at_spec (host : Host) (values : list ptr) (at' : nat) :
  host_tags_valid host values ->
  (Value_at host values at' = Returns None <-> (List.length values <= at')%nat) /\
  (forall v, nth_error values at' = Some v ->
     exists vt, value_type host v = Returns vt /\
                Value_at host values at' = Returns (Some (Value.mk v vt))) /\
  Value_at host values at' <> Panics.
Proof.
  intros Hv. unfold Value_at.
  destruct (nth_error values at') as [v|] eqn:E.
  - assert (Hin : In v values) by (eapply nth_error_In; eauto).
    destruct (value_type_valid_returns host v (Hv v Hin)) as [vt Evt].
    rewrite Evt. split; [|split].
    + split; [discriminate|]. intros Hle. apply nth_error_None in Hle. congruence.
    + intros v' Ev'. injection Ev' as <-. exists vt. auto.
    + discriminate.
  - split; [|split].
    + split; [intros _; apply nth_error_None, E | reflexivity].
    + discriminate.
    + discriminate.
Qed.

Lemma Value_at_spec_witness :
  host_tags_valid (fun _ => SQLITE_TEXT) [10; 20] /\
  Value_at (fun _ => SQLITE_TEXT) [10; 20] 1 = Returns (Some (Value.mk 20 ValueType.Text)).
Proof.
  assert (Hv : host_tags_valid (fun _ => SQLITE_TEXT) [10; 20])
    by (intros v _; simpl; tauto).
  split; [exact Hv|].
  destruct (Value_at_spec (fun _ => SQLITE_TEXT) [10; 20] 1 Hv) as [_ [H _]].
  destruct (H 20 eq_refl) as [vt [Evt E]].
  rewrite E. unfold value_type in Evt. simpl in Evt. injection Evt as <-. reflexivity.
Defined.

(** C9: [notnull_or] and [notnull_or_else] fail with the caller's error
    exactly for a [Null]-typed [Value], and return the same [Value] for
    each of the other four type tags. *)
Theorem notnull_guard (v : Value.t) (error : Error) (err : unit -> Error) :
  (Value.value_type v = ValueType.Null /\
   Value_notnull_or v error = Err error /\ Value_notnull_or_else v err = Err (err tt)) \/
  (In (Value.value_type v)
      [ValueType.Text; ValueType.Integer; ValueType.Float; ValueType.Blob] /\
   Value_notnull_or v error = Ok v /\ Value_notnull_or_else v err = Ok v).
Proof.
  destruct v as [p []]; unfold Value_notnull_or, Value_notnull_or_else; simpl; auto 8.
Qed.

Lemma as_c_int_range (n : Z) :
  - 2 ^ 31 <= as_c_int n < 2 ^ 31 /\ (as_c_int n - n) mod 2 ^ 32 = 0.
Proof.
  unfold as_c_int.
  pose proof (Z.mod_pos_bound n (2 ^ 32) ltac:(lia)) as Hb.
  pose proof (Z.div_mod n (2 ^ 32) ltac:(lia)) as Hd.
  destruct (n mod 2 ^ 32 <? 2 ^ 31) eqn:E;
    [apply Z.ltb_lt in E | apply Z.ltb_ge in E]; split; try lia.
  - replace (n mod 2 ^ 32 - n) with ((- (n / 2 ^ 32)) * 2 ^ 32) by lia.
    apply Z.mod_mul; lia.
  - replace (n mod 2 ^ 32 - 2 ^ 32 - n) with ((- (n / 2 ^ 32) - 1) * 2 ^ 32) by lia.
    apply Z.mod_mul; lia.
Qed.

Lemma as_c_int_small (n : Z) : 0 <= n < 2 ^ 31 -> as_c_int n = n.
Proof.
  intros H. unfold as_c_int. rewrite Z.mod_small by lia.
  destruct (n <? 2 ^ 31) eqn:E; [reflexivity | apply Z.ltb_ge in E; lia].
Qed.

Lemma as_c_int_wraps (n : Z) : 2 ^ 31 <= n < 2 ^ 32 -> as_c_int n = n - 2 ^ 32.
Proof.
  intros H. unfold as_c_int. rewrite Z.mod_small by lia.
  destruct (n <? 2 ^ 31) eqn:E; [apply Z.ltb_lt in E; lia | reflexivity].
Qed.

(** C10: [result_blob] never fails and passes the host the slice's length
    cast to [c_int] with wrap-around: the reported length is congruent to
    the length modulo [2^32] and lies in the [i32] range, equals the length
    up to [2^31 - 1], and is negative for lengths in [[2^31, 2^32)];
    [result_text] instead rejects every text longer than [2^31 - 1] bytes,
    with LengthOverflow when it holds no nul. *)
Theorem result_blob_wraps (context : ptr) (blob : str) (tr : list HostCall) :
  exists L,
    result_blob context blob tr = (tr ++ [Call_result_blob context blob L], Ok tt) /\
    - 2 ^ 31 <= L < 2 ^ 31 /\
    (L - Z.of_nat (List.length blob)) mod 2 ^ 32 = 0 /\
    (Z.of_nat (List.length blob) <= I32_MAX -> L = Z.of_nat (List.length blob)) /\
    (2 ^ 31 <= Z.of_nat (List.length blob) < 2 ^ 32 ->
       L = Z.of_nat (List.length blob) - 2 ^ 32 /\ L < 0) /\
    (I32_MAX < Z.of_nat (List.length blob) ->
       exists e, snd (result_text context blob tr) = Err e /\
                 (~ In nul blob -> e = LengthOverflow)).
Proof.
  exists (as_c_int (Z.of_nat (List.length blob))).
  pose proof (as_c_int_range (Z.of_nat (List.length blob))) as [HR HM].
  split; [reflexivity|]. split; [exact HR|]. split; [exact HM|]. split; [|split].
  - intros H. apply as_c_int_small. unfold I32_MAX in H. lia.
  - intros H. rewrite as_c_int_wraps by exact H. lia.
  - intros H. rewrite result_text_cases.
    destruct (find_nul blob 0) eqn:E.
    + eexists; split; [reflexivity|]. intros Hn. apply (proj2 (find_nul_None blob 0)) in Hn. congruence.
    + destruct (Z.of_nat (List.length blob) <=? I32_MAX) eqn:E2;
        [apply Z.leb_le in E2; lia|].
      eexists; split; [reflexivity | auto].
Qed.

(** C5 (code_bug): [result_error] fails with NulByteInSource on a message
    holding a nul, but it has no length check: on a nul-free message of
    [2^31] bytes it succeeds and hands the host the wrapped length [-2^31],
    where [result_text] fails with LengthOverflow.  [result_error_code] has
    no failure mode. *)
Theorem result_error_no_length_check (context : ptr) (tr : list HostCall) :
  result_error context huge_text tr =
    (tr ++ [Call_result_error context huge_text (- 2 ^ 31)], Ok tt) /\
  result_text context huge_text tr = (tr, Err LengthOverflow) /\
  (forall (text : str), In nul text ->
     exists e, result_error context text tr = (tr, Err e) /\ is_NulByteInSource e = true) /\
  (forall code : Z,
     result_error_code context code tr = (tr ++ [Call_result_error_code context code], Ok tt)).
Proof.
  assert (Hn : find_nul huge_text 0 = None)
    by (apply find_nul_repeat; discriminate).
  assert (Hl : Z.of_nat (List.length huge_text) = 2 ^ 31)
    by (unfold huge_text; rewrite repeat_length; apply huge_len_Z).
  split; [|split; [|split]].
  - rewrite result_error_cases, Hn, Hl. reflexivity.
  - rewrite result_text_cases, Hn, Hl. reflexivity.
  - intros text Hin. rewrite result_error_cases.
    destruct (find_nul text 0) eqn:E.
    + eexists; split; reflexivity.
    + apply find_nul_None in E. contradiction.
  - intros code. reflexivity.
Qed.

(** C6 (amended): [result_text] succeeds exactly when the text holds no
    nul byte and its length fits [i32]; it fails with NulByteInSource
    exactly when the text holds a nul (whatever its length), and with
    LengthOverflow exactly when it is nul-free and too long; on success it
    hands the host the nul-free bytes, their length and
    [result_text_destructor]. *)
Theorem result_text_outcome (context : ptr) (text : str) (tr : list HostCall) :
  (is_ok (snd (result_text context text tr)) = true <->
     ~ In nul text /\ Z.of_nat (List.length text) <= I32_MAX) /\
  ((exists e, snd (result_text context text tr) = Err e /\ is_NulByteInSource e = true)
     <-> In nul text) /\
  (snd (result_text context text tr) = Err LengthOverflow <->
     ~ In nul text /\ I32_MAX < Z.of_nat (List.length text)) /\
  (is_ok (snd (result_text context text tr)) = true ->
     result_text context text tr =
       (tr ++ [Call_result_text context text (Z.of_nat (List.length text))
                                (Some result_text_destructor)], Ok tt)).
Proof.
  rewrite result_text_cases.
  destruct (find_nul text 0) as [i|] eqn:E.
  - assert (Hin : In nul text).
    { destruct (In_dec ascii_dec nul text) as [H|H]; [exact H|].
      apply (proj2 (find_nul_None text 0)) in H. congruence. }
    simpl. split; [|split; [|split]].
    + split; [discriminate | tauto].
    + split; [intros _; exact Hin | intros _; eexists; split; reflexivity].
    + split; [discriminate | tauto].
    + discriminate.
  - apply find_nul_None in E.
    destruct (Z.of_nat (List.length text) <=? I32_MAX) eqn:E2;
      [apply Z.leb_le in E2 | apply Z.leb_gt in E2]; simpl.
    + split; [|split; [|split]].
      * tauto.
      * split; [intros [e [H _]]; discriminate | tauto].
      * split; [discriminate | lia].
      * reflexivity.
    + split; [|split; [|split]].
      * split; [discriminate | lia].
      * split; [intros [e [H1 H2]]; injection H1 as <-; discriminate | tauto].
      * tauto.
      * discriminate.
Qed.

(** C6 (as stated, refuted): a text that holds a nul and is [2^31 + 1]
    bytes long does not fit [i32], yet [result_text] fails with
    NulByteInSource, not LengthOverflow: the nul check runs first. *)
Lemma result_text_overflow_not_exact :
  ~ (forall (context : ptr) (text : str) (tr : list HostCall),
       snd (result_text context text tr) = Err LengthOverflow <->
       I32_MAX < Z.of_nat (List.length text)).
Proof.
  intros H.
  specialize (H 0 (nul :: huge_text) []).
  rewrite result_text_cases, find_nul_cons_nul in H.
  assert (Hl : Z.of_nat (List.length (nul :: huge_text)) = 2 ^ 31 + 1).
  { rewrite length_cons_Z. unfold huge_text. rewrite repeat_length, huge_len_Z.
    reflexivity. }
  rewrite Hl in H. unfold I32_MAX in H.
  assert (Hlt : 2 ^ 31 - 1 < 2 ^ 31 + 1) by lia.
  apply H in Hlt. discriminate Hlt.
Qed.

(** ** Claims on [ColumnAffinity::result_text] (the spec's coerce_and_emit) *)

Lemma result_text_ok_iff (context : ptr) (text : str) (tr : list HostCall) :
  is_ok (snd (result_text context text tr)) = true <->
  ~ In nul text /\ Z.of_nat (List.length text) <= I32_MAX.
Proof.
  rewrite result_text_cases. destruct (find_nul text 0) eqn:E.
  - simpl. split; [discriminate|]. intros [H _].
    apply (proj2 (find_nul_None text 0)) in H. congruence.
  - apply find_nul_None in E.
    destruct (Z.of_nat (List.length text) <=? I32_MAX) eqn:E2;
      [apply Z.leb_le in E2 | apply Z.leb_gt in E2]; simpl.
    + tauto.
    + split; [discriminate | lia].
Qed.

Lemma result_text_err (context : ptr) (text : str) (tr : list HostCall) (e : Error) :
  snd (result_text context text tr) = Err e ->
  (In nul text /\ is_NulByteInSource e = true) \/
  (~ In nul text /\ I32_MAX < Z.of_nat (List.length text) /\ e = LengthOverflow).
Proof.
  rewrite result_text_cases. destruct (find_nul text 0) eqn:E.
  - simpl. intros H. injection H as <-. left. split; [|reflexivity].
    destruct (In_dec ascii_dec nul text) as [Hin|Hin]; [exact Hin|].
    apply (proj2 (find_nul_None text 0)) in Hin. congruence.
  - apply find_nul_None in E.
    destruct (Z.of_nat (List.length text) <=? I32_MAX) eqn:E2;
      [apply Z.leb_le in E2 | apply Z.leb_gt in E2]; simpl.
    + discriminate.
    + intros H. injection H as <-. right. auto.
Qed.

Lemma result_text_appends (context : ptr) (text : str) (tr : list HostCall) :
  exists new, fst (result_text context text tr) = tr ++ new /\
              forallb (fun c => negb (is_double_call c)) new = true.
Proof.
  rewrite result_text_cases. destruct (find_nul text 0).
  - exists []. rewrite app_nil_r. auto.
  - destruct (_ <=? I32_MAX); [eexists; split; reflexivity|].
    exists []. rewrite app_nil_r. auto.
Qed.

Lemma spec_try_tier_None (t : Tier) (context : ptr) (s : str) :
  spec_try_tier t context s = None <-> spec_tier_accepts t s = false.
Proof.
  destruct t; simpl;
    [destruct (parse_i32 s) | destruct (parse_i64 s) | destruct (parse_f64 s)];
    simpl; split; congruence.
Qed.

Lemma affinity_result_text_tiers (a : ColumnAffinity.t) (context : ptr) (value : str)
    (tr : list HostCall) :
  ColumnAffinity.result_text a context value tr =
  spec_emit_by_tiers (spec_tier_table a) context value tr.
Proof.
  destruct a; simpl;
    destruct (parse_i32 value); simpl; try reflexivity;
    destruct (parse_i64 value); simpl; try reflexivity;
    destruct (parse_f64 value); reflexivity.
Qed.

Lemma emit_by_tiers_outcome (ts : list Tier) (context : ptr) (s : str) (tr : list HostCall) :
  (is_ok (snd (spec_emit_by_tiers ts context s tr)) = true <->
     existsb (fun t => spec_tier_accepts t s) ts = true \/
     (~ In nul s /\ Z.of_nat (List.length s) <= I32_MAX)) /\
  (forall e, snd (spec_emit_by_tiers ts context s tr) = Err e ->
     existsb (fun t => spec_tier_accepts t s) ts = false /\
     ((In nul s /\ is_NulByteInSource e = true) \/
      (~ In nul s /\ I32_MAX < Z.of_nat (List.length s) /\ e = LengthOverflow))).
Proof.
  induction ts as [|t ts IH]; simpl.
  - split.
    + rewrite result_text_ok_iff. split; [tauto | intros [H|H]; [discriminate | exact H]].
    + intros e H. split; [reflexivity | eapply result_text_err; exact H].
  - destruct (spec_try_tier t context s) as [c|] eqn:E.
    + assert (Hacc : spec_tier_accepts t s = true).
      { destruct (spec_tier_accepts t s) eqn:E'; [reflexivity|].
        apply (proj2 (spec_try_tier_None t context s)) in E'. congruence. }
      rewrite Hacc. simpl. split; [tauto | discriminate].
    + apply spec_try_tier_None in E. rewrite E. simpl. exact IH.
Qed.

(** C3: [ColumnAffinity::result_text] follows the tier table: Numeric tries
    [i32], then [i64], then [f64], then text; Integer tries [i32], then
    [i64], then text, and never emits a double; Real tries [f64], then
    text; Blob and Text go straight to [result_text].  Under Numeric,
    "42" emits the [i32] 42, "9999999999" the [i64] 9999999999, "3.14" the
    double read from the literal 3.14, and "abc" the text "abc"; under
    Integer, "3.14" emits the text "3.14". *)
Theorem affinity_tier_table :
  (forall a context value tr,
     ColumnAffinity.result_text a context value tr =
     spec_emit_by_tiers (spec_tier_table a) context value tr) /\
  (forall context value tr,
     ColumnAffinity.result_text ColumnAffinity.Blob context value tr = result_text context value tr /\
     ColumnAffinity.result_text ColumnAffinity.Text context value tr = result_text context value tr) /\
  (forall context value tr,
     exists new, fst (ColumnAffinity.result_text ColumnAffinity.Integer context value tr) = tr ++ new
                 /\ forallb (fun c => negb (is_double_call c)) new = true) /\
  (forall context tr,
     ColumnAffinity.result_text ColumnAffinity.Numeric context (lit "42") tr =
       (tr ++ [Call_result_int context 42], Ok tt) /\
     ColumnAffinity.result_text ColumnAffinity.Numeric context (lit "9999999999") tr =
       (tr ++ [Call_result_int64 context 9999999999], Ok tt) /\
     ColumnAffinity.result_text ColumnAffinity.Numeric context (lit "3.14") tr =
       (tr ++ [Call_result_double context (F64_Finite false 314 (-2))], Ok tt) /\
     ColumnAffinity.result_text ColumnAffinity.Numeric context (lit "abc") tr =
       (tr ++ [Call_result_text context (lit "abc") 3 (Some result_text_destructor)], Ok tt) /\
     ColumnAffinity.result_text ColumnAffinity.Integer context (lit "3.14") tr =
       (tr ++ [Call_result_text context (lit "3.14") 4 (Some result_text_destructor)], Ok tt)).
Proof.
  split; [exact affinity_result_text_tiers|]. split; [|split].
  - intros context value tr. split; reflexivity.
  - intros context value tr. rewrite affinity_result_text_tiers. simpl.
    destruct (parse_i32 value); simpl; [eexists; split; reflexivity|].
    destruct (parse_i64 value); simpl; [eexists; split; reflexivity|].
    apply result_text_appends.
  - intros context tr. repeat split; reflexivity.
Qed.

(** C1 (as stated, refuted): the text fallback can fail.  Under Numeric
    affinity the value "a\0b" parses as no number, and [result_text]
    rejects its nul byte, so the call returns an error. *)
Lemma affinity_result_text_can_fail :
  ~ (forall (a : ColumnAffinity.t) (context : ptr) (value : str) (tr : list HostCall),
       is_ok (snd (ColumnAffinity.result_text a context value tr)) = true).
Proof.
  intros H.
  specialize (H ColumnAffinity.Numeric 0 ["a"%char; nul; "b"%char] []).
  vm_compute in H. discriminate H.
Qed.

(** C1 (amended): [ColumnAffinity::result_text] succeeds exactly when one of
    its affinity's numeric tiers parses the value, or the value is nul-free
    and at most [2^31 - 1] bytes long.  Every failure comes from the text
    fallback, after all numeric tiers failed: NulByteInSource for a value
    holding a nul, LengthOverflow for a nul-free value that is too long. *)
Theorem affinity_result_text_fails_only_at_text (a : ColumnAffinity.t) (context : ptr)
    (value : str) (tr : list HostCall) :
  (is_ok (snd (ColumnAffinity.result_text a context value tr)) = true <->
     spec_numeric_tier_accepts a value = true \/
     (~ In nul value /\ Z.of_nat (List.length value) <= I32_MAX)) /\
  (forall e, snd (ColumnAffinity.result_text a context value tr) = Err e ->
     spec_numeric_tier_accepts a value = false /\
     ((In nul value /\ is_NulByteInSource e = true) \/
      (~ In nul value /\ I32_MAX < Z.of_nat (List.length value) /\ e = LengthOverflow))).
Proof.
  rewrite affinity_result_text_tiers. unfold spec_numeric_tier_accepts.
  apply emit_by_tiers_outcome.
Qed.

(** ** Lemmas on case-insensitive search and [trim] *)

Lemma ws_lower (c : u8) : ws_byte c = true -> to_ascii_lowercase c = c.
Proof.
  unfold ws_byte, is_whitespace, byte_val, to_ascii_lowercase. intros H.
  destruct ((65 <=? N_of_ascii c)%N && (N_of_ascii c <=? 90)%N) eqn:E; [|reflexivity].
  apply andb_true_iff in E as [E1 E2]. apply N.leb_le in E1. apply N.leb_le in E2.
  rewrite !orb_true_iff, andb_true_iff, !Z.leb_le, Z.eqb_eq in H. lia.
Qed.

Lemma eq_ci_ws (c d : u8) :
  pat_char_ok d = true -> ws_byte c = true -> eq_ci c d = false.
Proof.
  unfold pat_char_ok, eq_ci. intros Hd Hc.
  apply andb_true_iff in Hd as [Hd1 Hd2]. apply Ascii.eqb_eq in Hd2.
  rewrite ws_lower by exact Hc. rewrite Hd2.
  destruct (Ascii.eqb c d) eqn:E; [|reflexivity].
  apply Ascii.eqb_eq in E. subst. rewrite Hc in Hd1. discriminate.
Qed.

Lemma starts_with_lower (s p : str) :
  forallb (fun d => Ascii.eqb (to_ascii_lowercase d) d) p = true ->
  starts_with (to_lowercase s) p = starts_with_ci s p.
Proof.
  revert s; induction p as [|d p IH]; intros s Hp; [destruct s; reflexivity|].
  simpl in Hp. apply andb_true_iff in Hp as [Hd Hp]. apply Ascii.eqb_eq in Hd.
  destruct s as [|c s]; [reflexivity|]. simpl.
  unfold eq_ci. rewrite Hd. f_equal. apply IH, Hp.
Qed.

Lemma contains_lower (s p : str) :
  forallb (fun d => Ascii.eqb (to_ascii_lowercase d) d) p = true ->
  contains (to_lowercase s) p = contains_ci s p.
Proof.
  intros Hp. induction s as [|c s IH].
  - apply (starts_with_lower [] p Hp).
  - change (starts_with (to_lowercase (c :: s)) p || contains (to_lowercase s) p =
            starts_with_ci (c :: s) p || contains_ci s p).
    rewrite starts_with_lower by exact Hp. rewrite IH. reflexivity.
Qed.

Lemma starts_with_ci_app_ws (x a p : str) :
  forallb pat_char_ok p = true -> forallb ws_byte a = true ->
  starts_with_ci (x ++ a) p = starts_with_ci x p.
Proof.
  revert x; induction p as [|d p IH]; intros x Hp Ha; [destruct x, a; reflexivity|].
  simpl in Hp. apply andb_true_iff in Hp as [Hd Hp].
  destruct x as [|c x].
  - destruct a as [|w a]; [reflexivity|]. simpl in Ha |- *.
    apply andb_true_iff in Ha as [Hw _]. rewrite (eq_ci_ws w d Hd Hw). reflexivity.
  - simpl. rewrite IH by assumption. reflexivity.
Qed.

Lemma starts_with_ci_ws_head (w : u8) (r p : str) :
  p <> [] -> forallb pat_char_ok p = true -> ws_byte w = true ->
  starts_with_ci (w :: r) p = false.
Proof.
  destruct p as [|d p]; [congruence|]. intros _ Hp Hw.
  simpl in Hp |- *. apply andb_true_iff in Hp as [Hd _].
  rewrite (eq_ci_ws w d Hd Hw). reflexivity.
Qed.

Lemma contains_ci_ws_only (a p : str) :
  p <> [] -> forallb pat_char_ok p = true -> forallb ws_byte a = true ->
  contains_ci a p = false.
Proof.
  intros Hne Hp. induction a as [|w a IH]; intros Ha.
  - destruct p; [congruence | reflexivity].
  - simpl in Ha. apply andb_true_iff in Ha as [Hw Ha].
    change (starts_with_ci (w :: a) p || contains_ci a p = false).
    rewrite starts_with_ci_ws_head by assumption. apply IH, Ha.
Qed.

Lemma contains_ci_app_ws_r (b a p : str) :
  p <> [] -> forallb pat_char_ok p = true -> forallb ws_byte a = true ->
  contains_ci (b ++ a) p = contains_ci b p.
Proof.
  intros Hne Hp Ha. induction b as [|c b IH].
  - simpl. rewrite contains_ci_ws_only by assumption. destruct p; [congruence | reflexivity].
  - change (starts_with_ci ((c :: b) ++ a) p || contains_ci (b ++ a) p =
            starts_with_ci (c :: b) p || contains_ci b p).
    rewrite starts_with_ci_app_ws, IH by assumption. reflexivity.
Qed.

Lemma contains_ci_app_ws_l (a b p : str) :
  p <> [] -> forallb pat_char_ok p = true -> forallb ws_byte a = true ->
  contains_ci (a ++ b) p = contains_ci b p.
Proof.
  intros Hne Hp. induction a as [|w a IH]; intros Ha; [reflexivity|].
  simpl in Ha. apply andb_true_iff in Ha as [Hw Ha].
  change (starts_with_ci (w :: a ++ b) p || contains_ci (a ++ b) p = contains_ci b p).
  rewrite starts_with_ci_ws_head by assumption. apply IH, Ha.
Qed.

Lemma is_ws2_bytes (c c1 : u8) :
  is_ws2 c c1 = true -> byte_val c = 194 /\ 128 <= byte_val c1.
Proof.
  unfold is_ws2, byte_is. intros H.
  rewrite andb_true_iff, orb_true_iff, !Z.eqb_eq in H. lia.
Qed.

Lemma is_ws3_bytes (c c1 c2 : u8) :
  is_ws3 c c1 c2 = true ->
  225 <= byte_val c <= 227 /\ 128 <= byte_val c1 /\ 128 <= byte_val c2.
Proof.
  unfold is_ws3, byte_is. intros H.
  repeat (rewrite orb_true_iff in H || rewrite andb_true_iff in H
          || rewrite Z.leb_le in H || rewrite Z.eqb_eq in H).
  lia.
Qed.

Lemma ws_not_ascii (c : u8) : 128 <= byte_val c -> is_whitespace c = false.
Proof.
  intros H. apply not_true_is_false. intros Hw.
  cbv beta zeta delta [is_whitespace] in Hw.
  rewrite orb_true_iff, andb_true_iff, !Z.leb_le, Z.eqb_eq in Hw. lia.
Qed.

Lemma ws2_not_lead (c c1 : u8) : byte_val c <> 194 -> is_ws2 c c1 = false.
Proof. intros H. unfold is_ws2, byte_is. rewrite (proj2 (Z.eqb_neq _ _) H). reflexivity. Qed.

Lemma ws_byte_hi (c : u8) : 128 <= byte_val c -> ws_byte c = true.
Proof. intros H. unfold ws_byte. rewrite (proj2 (Z.leb_le _ _) H), orb_true_r. reflexivity. Qed.

Lemma ws_enc_chars (w : str) : ws_enc w -> ws_chars w.
Proof. intros H. rewrite <- (app_nil_r w). constructor; [exact H | constructor]. Qed.

Lemma ws_chars_app (a b : str) : ws_chars a -> ws_chars b -> ws_chars (a ++ b).
Proof.
  induction 1 as [|w a Hw _ IH]; intros Hb; [exact Hb|].
  rewrite <- app_assoc. constructor; [exact Hw | apply IH, Hb].
Qed.

Lemma ws_chars_bytes (a : str) : ws_chars a -> forallb ws_byte a = true.
Proof.
  induction 1 as [|w a Hw _ IH]; [reflexivity|].
  rewrite forallb_app, IH, andb_true_r.
  destruct Hw as [[c [-> Hc]] | [[c [c1 [-> H2]]] | [c [c1 [c2 [-> H3]]]]]]; simpl.
  - unfold ws_byte. rewrite Hc. reflexivity.
  - apply is_ws2_bytes in H2. rewrite !ws_byte_hi by lia. reflexivity.
  - apply is_ws3_bytes in H3. rewrite !ws_byte_hi by lia. reflexivity.
Qed.

Lemma trim_start_ws_enc (w s : str) : ws_enc w -> trim_start (w ++ s) = trim_start s.
Proof.
  intros [[c [-> Hc]] | [[c [c1 [-> H2]]] | [c [c1 [c2 [-> H3]]]]]]; simpl.
  - rewrite Hc. reflexivity.
  - pose proof (is_ws2_bytes _ _ H2). rewrite ws_not_ascii by lia. rewrite H2. reflexivity.
  - pose proof (is_ws3_bytes _ _ _ H3).
    rewrite ws_not_ascii by lia. rewrite ws2_not_lead by lia. rewrite H3. reflexivity.
Qed.

Lemma trim_start_ws_chars (a b : str) : ws_chars a -> trim_start (a ++ b) = trim_start b.
Proof.
  induction 1 as [|w a Hw _ IH]; [reflexivity|].
  rewrite <- app_assoc, trim_start_ws_enc by exact Hw. exact IH.
Qed.

Lemma trim_start_split (s : str) :
  exists lead, s = lead ++ trim_start s /\ ws_chars lead.
Proof.
  remember (List.length s) as n eqn:Hn. revert s Hn.
  induction n as [n IH] using lt_wf_ind. intros s Hn.
  destruct s as [|c r]; [exists []; split; [reflexivity | constructor]|].
  simpl in Hn. simpl. destruct (is_whitespace c) eqn:Hc.
  - destruct (IH (List.length r) ltac:(lia) r eq_refl) as [lead [E H]].
    exists (c :: lead). split; [simpl; rewrite <- E; reflexivity|].
    apply (ws_chars_cons [c] lead); [left; eauto | exact H].
  - destruct r as [|c1 r1]; [exists []; split; [reflexivity | constructor]|].
    simpl in Hn. destruct (is_ws2 c c1) eqn:H2.
    + destruct (IH (List.length r1) ltac:(lia) r1 eq_refl) as [lead [E H]].
      exists (c :: c1 :: lead). split; [simpl; rewrite <- E; reflexivity|].
      apply (ws_chars_cons [c; c1] lead); [right; left; eauto | exact H].
    + destruct r1 as [|c2 r2]; [exists []; split; [reflexivity | constructor]|].
      simpl in Hn. destruct (is_ws3 c c1 c2) eqn:H3.
      * destruct (IH (List.length r2) ltac:(lia) r2 eq_refl) as [lead [E H]].
        exists (c :: c1 :: c2 :: lead). split; [simpl; rewrite <- E; reflexivity|].
        apply (ws_chars_cons [c; c1; c2] lead); [right; right; eauto 6 | exact H].
      * exists []. split; [reflexivity | constructor].
Qed.

Lemma trim_back_split (r : str) :
  exists lr, r = lr ++ trim_back r /\ ws_chars (rev lr).
Proof.
  remember (List.length r) as n eqn:Hn. revert r Hn.
  induction n as [n IH] using lt_wf_ind. intros r Hn.
  destruct r as [|c r]; [exists []; split; [reflexivity | constructor]|].
  simpl in Hn. simpl. destruct (is_whitespace c) eqn:Hc.
  - destruct (IH (List.length r) ltac:(lia) r eq_refl) as [lead [E H]].
    exists (c :: lead). split; [simpl; rewrite <- E; reflexivity|].
    simpl. apply ws_chars_app; [exact H|]. apply ws_enc_chars. left; eauto.
  - destruct r as [|c1 r1]; [exists []; split; [reflexivity | constructor]|].
    simpl in Hn. destruct (is_ws2 c1 c) eqn:H2.
    + destruct (IH (List.length r1) ltac:(lia) r1 eq_refl) as [lead [E H]].
      exists (c :: c1 :: lead). split; [simpl; rewrite <- E; reflexivity|].
      simpl. rewrite <- app_assoc. apply ws_chars_app; [exact H|].
      apply ws_enc_chars. right; left. exists c1, c. split; [reflexivity | exact H2].
    + destruct r1 as [|c2 r2]; [exists []; split; [reflexivity | constructor]|].
      simpl in Hn. destruct (is_ws3 c2 c1 c) eqn:H3.
      * destruct (IH (List.length r2) ltac:(lia) r2 eq_refl) as [lead [E H]].
        exists (c :: c1 :: c2 :: lead). split; [simpl; rewrite <- E; reflexivity|].
        simpl. rewrite <- !app_assoc. apply ws_chars_app; [exact H|].
        apply ws_enc_chars. right; right. exists c2, c1, c. split; [reflexivity | exact H3].
      * exists []. split; [reflexivity | constructor].
Qed.

Lemma trim_end_split (s : str) :
  exists trail, s = trim_end s ++ trail /\ ws_chars trail.
Proof.
  destruct (trim_back_split (rev s)) as [lr [E H]].
  exists (rev lr). split; [|exact H].
  unfold trim_end. rewrite <- rev_app_distr, <- E, rev_involutive. reflexivity.
Qed.

Lemma all_whitespace_chars (s : str) : all_whitespace s = true <-> ws_chars s.
Proof.
  unfold all_whitespace. split.
  - intros Ht. destruct (trim_start_split s) as [lead [E H]].
    destruct (trim_start s) eqn:Es; [|discriminate Ht].
    rewrite E, app_nil_r. exact H.
  - intros H. rewrite <- (app_nil_r s), trim_start_ws_chars by exact H. reflexivity.
Qed.

Lemma trim_empty_chars (s : str) : trim s = [] <-> ws_chars s.
Proof.
  unfold trim. split.
  - intros Ht. destruct (trim_start_split s) as [lead [E1 H1]].
    destruct (trim_end_split (trim_start s)) as [trail [E2 H2]].
    rewrite Ht in E2. simpl in E2.
    rewrite E1, E2. apply ws_chars_app; assumption.
  - intros H. rewrite <- (app_nil_r s), trim_start_ws_chars by exact H. reflexivity.
Qed.

Lemma trim_not_all_ws (s : str) :
  all_whitespace s = false -> exists c r, trim s = c :: r.
Proof.
  intros H. destruct (trim s) as [|c r] eqn:E; [|eauto].
  apply trim_empty_chars, all_whitespace_chars in E. congruence.
Qed.

Lemma is_empty_lower_trim (s : str) :
  is_empty (to_lowercase (trim s)) = all_whitespace s.
Proof.
  destruct (trim s) as [|c r] eqn:E; simpl; symmetry.
  - apply all_whitespace_chars, trim_empty_chars, E.
  - apply not_true_is_false. intros H.
    apply all_whitespace_chars, trim_empty_chars in H. congruence.
Qed.

Lemma all_whitespace_trim (s : str) : all_whitespace (trim s) = all_whitespace s.
Proof.
  apply eq_true_iff_eq. rewrite !all_whitespace_chars. split.
  - intros H. destruct (trim_start_split s) as [lead [E1 H1]].
    destruct (trim_end_split (trim_start s)) as [trail [E2 H2]].
    rewrite E1, E2. fold (trim s).
    apply ws_chars_app; [exact H1 | apply ws_chars_app; assumption].
  - intros H. apply trim_empty_chars in H. rewrite H. constructor.
Qed.

Lemma contains_ci_trim (s p : str) :
  p <> [] -> forallb pat_char_ok p = true ->
  contains_ci (trim s) p = contains_ci s p.
Proof.
  intros Hne Hp. unfold trim.
  destruct (trim_end_split (trim_start s)) as [trail [E1 H1]].
  destruct (trim_start_split s) as [lead [E2 H2]].
  rewrite <- (contains_ci_app_ws_r (trim_end (trim_start s)) trail p Hne Hp
                (ws_chars_bytes _ H1)), <- E1.
  rewrite E2 at 2.
  rewrite (contains_ci_app_ws_l lead (trim_start s) p Hne Hp (ws_chars_bytes _ H2)).
  reflexivity.
Qed.

Ltac pattern_side := cbv; first [discriminate | reflexivity].

Lemma from_declared_type_spec (s : str) :
  ColumnAffinity.from_declared_type s = spec_classify s.
Proof.
  unfold ColumnAffinity.from_declared_type, spec_classify.
  rewrite !contains_lower by pattern_side.
  rewrite !contains_ci_trim by pattern_side.
  rewrite is_empty_lower_trim. reflexivity.
Qed.

Lemma extended_spec (s : str) :
  ExtendedColumnAffinity.extended_column_affinity_from_type s =
  spec_extended_classify s (is_empty s).
Proof.
  unfold ExtendedColumnAffinity.extended_column_affinity_from_type, spec_extended_classify.
  rewrite !contains_lower by pattern_side.
  destruct s; reflexivity.
Qed.

(** ** Claims on the affinity classifiers *)

(** C2 (as stated, refuted): a declared type of one space is not empty
    and holds none of the words, so the claim's table gives Numeric, but
    [from_declared_type] trims it to the empty string and answers Blob. *)
Lemma from_declared_type_space_not_numeric :
  ~ (forall s : str, ColumnAffinity.from_declared_type s = spec_classify_claim s).
Proof.
  intros H. specialize (H (lit " ")). vm_compute in H. discriminate H.
Qed.

(** C2 (amended): [from_declared_type] classifies by case-insensitive
    substring search in strict precedence order: "int" gives Integer
    whatever else occurs; else "char", "clob" or "text" gives Text; else
    "blob", or a string that is empty or all whitespace, gives Blob; else
    "real", "floa" or "doub" gives Real; else Numeric.  So "integer text"
    is Integer, "VARCHAR(255)" Text, "DOUBLE" Real, "FOO" Numeric, and ""
    and the no-break space U+00A0 (whitespace) Blob. *)
Theorem from_declared_type_precedence :
  (forall s : str, ColumnAffinity.from_declared_type s = spec_classify s) /\
  ColumnAffinity.from_declared_type (lit "integer text") = ColumnAffinity.Integer /\
  ColumnAffinity.from_declared_type (lit "VARCHAR(255)") = ColumnAffinity.Text /\
  ColumnAffinity.from_declared_type (lit "DOUBLE") = ColumnAffinity.Real /\
  ColumnAffinity.from_declared_type (lit "FOO") = ColumnAffinity.Numeric /\
  ColumnAffinity.from_declared_type (lit "") = ColumnAffinity.Blob /\
  ColumnAffinity.from_declared_type nbsp = ColumnAffinity.Blob.
Proof.
  split; [exact from_declared_type_spec|].
  repeat split; vm_compute; reflexivity.
Qed.

(** C4 (code_bug): [from_declared_type] is invariant under [trim], but
    [extended_column_affinity_from_type] does not trim: it agrees with its
    value on the trimmed string except on non-empty all-whitespace strings,
    where it misses the Blob case; on " " it answers Numeric while the
    trimmed " " (the empty string) is Blob, and [from_declared_type " "]
    is Blob; the same holds for the no-break space U+00A0.  Whitespace is
    Unicode's, as [str::trim] strips it. *)
Theorem extended_affinity_misses_trim :
  (forall s : str,
     ColumnAffinity.from_declared_type s = ColumnAffinity.from_declared_type (trim s)) /\
  (forall s : str, all_whitespace s = false ->
     ExtendedColumnAffinity.extended_column_affinity_from_type s =
     ExtendedColumnAffinity.extended_column_affinity_from_type (trim s)) /\
  ExtendedColumnAffinity.extended_column_affinity_from_type (lit " ") =
    ExtendedColumnAffinity.Numeric /\
  ExtendedColumnAffinity.extended_column_affinity_from_type (trim (lit " ")) =
    ExtendedColumnAffinity.Blob /\
  ColumnAffinity.from_declared_type (lit " ") = ColumnAffinity.Blob /\
  ExtendedColumnAffinity.extended_column_affinity_from_type nbsp =
    ExtendedColumnAffinity.Numeric /\
  ExtendedColumnAffinity.extended_column_affinity_from_type (trim nbsp) =
    ExtendedColumnAffinity.Blob /\
  ColumnAffinity.from_declared_type nbsp = ColumnAffinity.Blob.
Proof.
  split; [|split; [|repeat split; vm_compute; reflexivity]].
  - intros s. rewrite !from_declared_type_spec. unfold spec_classify.
    rewrite !contains_ci_trim by pattern_side. rewrite all_whitespace_trim. reflexivity.
  - intros s H. rewrite !extended_spec. unfold spec_extended_classify.
    rewrite !contains_ci_trim by pattern_side.
    destruct (trim_not_all_ws s H) as [c [r E]]. rewrite E.
    destruct s; [discriminate H | reflexivity].
Qed.

(** ** Properties of the rest of [api.rs] *)

Lemma cstr_from_ptr_None (buf : str) : cstr_from_ptr buf = None <-> ~ In nul buf.
Proof.
  induction buf as [|c r IH]; simpl; [tauto|].
  destruct (Ascii.eqb c nul) eqn:E.
  - apply nul_eqb in E. subst.
    split; [discriminate | intros H; exfalso; apply H; left; reflexivity].
  - assert (Hc : c <> nul)
      by (intros ->; rewrite (proj2 (nul_eqb nul) eq_refl) in E; discriminate).
    destruct (cstr_from_ptr r) as [s|] eqn:Er.
    + split; [discriminate|]. intros H. exfalso.
      assert (Hr : ~ In nul r) by tauto. apply IH in Hr. discriminate.
    + assert (Hr : ~ In nul r) by (apply IH; reflexivity).
      split; [|reflexivity]. intros _ [H|H]; [congruence | contradiction].
Qed.

Lemma cstr_from_ptr_app (s rest : str) :
  ~ In nul s -> cstr_from_ptr (s ++ nul :: rest) = Some s.
Proof.
  induction s as [|c s IH]; intros Hs; [reflexivity|].
  simpl. destruct (Ascii.eqb c nul) eqn:E.
  - apply nul_eqb in E. subst. exfalso. apply Hs. left. reflexivity.
  - rewrite IH by (intros H; apply Hs; right; exact H). reflexivity.
Qed.

Lemma utf8_ascii (s : str) (i : nat) :
  Forall (fun c => byte_val c < 128) s -> utf8_error_at s i = None.
Proof.
  intros H. revert i. induction H as [|c s Hc Hs IH]; intros i; [reflexivity|].
  simpl. apply Z.ltb_lt in Hc. rewrite Hc. apply IH.
Qed.

(** Extra: [value_text] reads the host's text up to its first nul byte and
    decodes exactly those bytes: with no nul in the readable memory the
    read is undefined; otherwise the result is the UTF-8 check of the bytes
    before the first nul, which succeeds with those bytes when they are
    ASCII. *)
Theorem value_text_reads_to_nul (vh : ValueHost) (value : ptr) (buf : str) :
  vh_text vh value = Some buf ->
  (~ In nul buf -> value_text vh value = Undefined) /\
  (forall s rest, buf = s ++ nul :: rest -> ~ In nul s ->
     value_text vh value = Done (cstr_to_str s) /\
     (Forall (fun c => byte_val c < 128) s -> value_text vh value = Done (Ok s))).
Proof.
  intros Hb. unfold value_text. rewrite Hb. split.
  - intros Hn. apply cstr_from_ptr_None in Hn. rewrite Hn. reflexivity.
  - intros s rest -> Hs. rewrite cstr_from_ptr_app by exact Hs.
    split; [reflexivity|]. intros Ha. unfold cstr_to_str. rewrite utf8_ascii by exact Ha.
    reflexivity.
Qed.

Lemma value_text_reads_to_nul_witness :
  vh_text (demo_host SQLITE_TEXT (Some (lit "hi" ++ [nul; "x"%char]))) 0 =
    Some (lit "hi" ++ [nul; "x"%char]) /\
  value_text (demo_host SQLITE_TEXT (Some (lit "hi" ++ [nul; "x"%char]))) 0 = Done (Ok (lit "hi")).
Proof.
  split; [reflexivity|].
  destruct (value_text_reads_to_nul (demo_host SQLITE_TEXT (Some (lit "hi" ++ [nul; "x"%char]))) 0
              (lit "hi" ++ [nul; "x"%char]) eq_refl) as [_ H].
  apply (H (lit "hi") ["x"%char] eq_refl); [vm_compute; intros [E|[E|[]]]; discriminate E|].
  repeat constructor; vm_compute; reflexivity.
Defined.



(** Extra: [value_blob] builds its slice straight from the host's pointer
    and byte count: a NULL blob pointer (sqlite3's answer for a zero-length
    blob or an SQL NULL) is undefined behaviour even when the count is 0; a
    count in [[0, readable bytes]] gives exactly the first that many bytes;
    a negative count becomes a [usize] beyond [2^63] and reads past any
    real buffer. *)
Theorem value_blob_slice (vh : ValueHost) (value : ptr) :
  (vh_blob vh value = None -> value_blob vh value = Undefined) /\
  (forall buf, vh_blob vh value = Some buf ->
     0 <= vh_bytes vh value <= Z.of_nat (List.length buf) -> vh_bytes vh value < 2 ^ 31 ->
     value_blob vh value = Done (firstn (Z.to_nat (vh_bytes vh value)) buf) /\
     Z.of_nat (List.length (firstn (Z.to_nat (vh_bytes vh value)) buf)) = vh_bytes vh value) /\
  (forall buf, vh_blob vh value = Some buf -> Z.of_nat (List.length buf) < 2 ^ 63 ->
     - 2 ^ 31 <= vh_bytes vh value < 0 -> value_blob vh value = Undefined).
Proof.
  unfold value_blob, as_usize. split; [|split].
  - intros H. rewrite H. reflexivity.
  - intros buf H Hn Hi. rewrite H. rewrite Z.mod_small by lia.
    destruct (vh_bytes vh value <=? Z.of_nat (List.length buf)) eqn:E;
      [|apply Z.leb_gt in E; lia].
    split; [reflexivity|]. rewrite length_firstn, Nat2Z.inj_min, Z2Nat.id by lia. lia.
  - intros buf H Hl Hn. rewrite H.
    assert (Hm : vh_bytes vh value mod 2 ^ 64 = vh_bytes vh value + 2 ^ 64).
    { rewrite <- (Z.mod_small (vh_bytes vh value + 2 ^ 64) (2 ^ 64)) by lia.
      rewrite <- Z.add_mod_idemp_r, Z_mod_same_full, Z.add_0_r by lia. reflexivity. }
    rewrite Hm. destruct (_ <=? _) eqn:E; [apply Z.leb_le in E; lia | reflexivity].
Qed.

Lemma find_nul_Some (s : str) (i j : nat) :
  find_nul s i = Some j ->
  (i <= j)%nat /\ nth_error s (j - i) = Some nul /\ ~ In nul (firstn (j - i) s).
Proof.
  revert i; induction s as [|c s IH]; intros i H; [discriminate|].
  simpl in H. destruct (Ascii.eqb c nul) eqn:E.
  - injection H as <-. apply nul_eqb in E. subst. rewrite Nat.sub_diag. simpl. auto.
  - destruct (IH (S i) H) as [H1 [H2 H3]].
    replace (j - i)%nat with (S (j - S i)) by lia. simpl. split; [lia|]. split; [exact H2|].
    intros [H4|H4]; [subst; rewrite (proj2 (nul_eqb nul) eq_refl) in E; discriminate | auto].
Qed.

(** Extra: [mprintf] rejects a template holding a nul before calling
    [sqlite3_mprintf], reporting the first nul's position and the template,
    whatever the host would make of the format (so even "%s" followed by a
    nul is safe); a nul-free template is handed to [sqlite3_mprintf]
    unchanged: [Oom] when it answers NULL, its pointer otherwise, and
    undefined behaviour exactly when the host's reading of the format is. *)
Theorem mprintf_outcome (sqlite3_mprintf : str -> run ptr) (base : str) :
  (In nul base ->
     exists e, mprintf sqlite3_mprintf base = Done (Err (Mprintf_Nul e)) /\
               nul_bytes e = base /\
               nth_error base (nul_position e) = Some nul /\
               ~ In nul (firstn (nul_position e) base) /\
               (forall host : str -> run ptr, mprintf host base = mprintf sqlite3_mprintf base)) /\
  (~ In nul base ->
     (sqlite3_mprintf base = Done 0 -> mprintf sqlite3_mprintf base = Done (Err Mprintf_Oom)) /\
     (forall r, sqlite3_mprintf base = Done r -> r <> 0 ->
        mprintf sqlite3_mprintf base = Done (Ok r)) /\
     (mprintf sqlite3_mprintf base = Undefined <-> sqlite3_mprintf base = Undefined)).
Proof.
  unfold mprintf, CString_new. split.
  - intros Hin. destruct (find_nul base 0) as [j|] eqn:E.
    + destruct (find_nul_Some base 0 j E) as [_ [H2 H3]]. rewrite Nat.sub_0_r in H2, H3.
      eexists; repeat split; try eassumption; reflexivity.
    + apply find_nul_None in E. contradiction.
  - intros Hn. apply (proj2 (find_nul_None base 0)) in Hn. rewrite Hn.
    split; [|split].
    + intros H. rewrite H. reflexivity.
    + intros r H Hr. rewrite H. apply Z.eqb_neq in Hr. rewrite Hr. reflexivity.
    + destruct (sqlite3_mprintf base); split; congruence.
Qed.

(** Extra: [result_json] sets the JSON text and then the subtype 'J' (74);
    when [result_text] rejects the serialized text (a nul byte, or too
    long) it returns that error before the subtype is set, so no host call
    is made at all. *)
Theorem result_json_text_then_subtype (J : Type) (to_s : J -> str) (context : ptr)
    (value : J) (tr : list HostCallExt) :
  (~ In nul (to_s value) -> Z.of_nat (List.length (to_s value)) <= I32_MAX ->
     result_json J to_s context value tr =
       (tr ++ [Base (Call_result_text context (to_s value)
                       (Z.of_nat (List.length (to_s value))) (Some result_text_destructor));
               Call_result_subtype context 74], Ok tt)) /\
  (forall e, snd (result_text context (to_s value) []) = Err e ->
     result_json J to_s context value tr = (tr, Err e)).
Proof.
  unfold result_json, bindX, liftX, result_subtype, retX. split.
  - intros Hn Hl. apply (proj2 (find_nul_None (to_s value) 0)) in Hn.
    rewrite result_text_cases, Hn.
    apply Z.leb_le in Hl. rewrite Hl. simpl. rewrite <- app_assoc. reflexivity.
  - intros e He. destruct (result_text context (to_s value) []) as [calls r] eqn:E.
    simpl in He. subst r.
    rewrite result_text_cases in E.
    destruct (find_nul (to_s value) 0); [injection E as <- _; rewrite app_nil_r; reflexivity|].
    destruct (_ <=? I32_MAX); [discriminate E | injection E as <- _].
    rewrite app_nil_r. reflexivity.
Qed.

Ltac utf8_stop H :=
  injection H as <-; rewrite Nat.sub_diag; simpl; split; [lia | split; [lia | reflexivity]].

Lemma utf8_valid_up_to (s : str) (k j : nat) :
  utf8_error_at s k = Some j ->
  (k <= j)%nat /\ (j - k < List.length s)%nat /\ utf8_error_at (firstn (j - k) s) k = None.
Proof.
  remember (List.length s) as n eqn:Hn. revert s k j Hn.
  induction n as [n IH] using lt_wf_ind. intros s k j Hn H.
  destruct s as [|c r]; [discriminate H|].
  simpl in Hn. simpl in H.
  destruct (byte_val c <? 128) eqn:Ea.
  - destruct (IH (List.length r) ltac:(lia) r (S k) j eq_refl H) as [H1 [H2 H3]].
    replace (j - k)%nat with (S (j - S k)) by lia.
    split; [lia | split; [simpl; lia|]]. simpl. rewrite Ea. exact H3.
  - destruct (lead_info c) as [[[w lo] hi]|] eqn:El; [|utf8_stop H].
    destruct r as [|c1 r1]; [utf8_stop H|].
    destruct (in_byte_range c1 lo hi) eqn:E1; [|utf8_stop H].
    destruct (w =? 2)%nat eqn:Ew.
    + simpl in Hn.
      destruct (IH (List.length r1) ltac:(lia) r1 (k + 2)%nat j eq_refl H) as [H1 [H2 H3]].
      replace (j - k)%nat with (S (S (j - (k + 2)%nat))) by lia.
      split; [lia | split; [simpl; lia|]]. simpl. rewrite Ea, El, E1, Ew. exact H3.
    + destruct r1 as [|c2 r2]; [utf8_stop H|].
      destruct (is_cont c2) eqn:E2; [|utf8_stop H].
      destruct (w =? 3)%nat eqn:Ew3.
      * simpl in Hn.
        destruct (IH (List.length r2) ltac:(lia) r2 (k + 3)%nat j eq_refl H) as [H1 [H2 H3]].
        replace (j - k)%nat with (S (S (S (j - (k + 3)%nat)))) by lia.
        split; [lia | split; [simpl; lia|]]. simpl. rewrite Ea, El, E1, Ew, E2, Ew3. exact H3.
      * destruct r2 as [|c3 r3]; [utf8_stop H|].
        destruct (is_cont c3) eqn:E3; [|utf8_stop H].
        simpl in Hn.
        destruct (IH (List.length r3) ltac:(lia) r3 (k + 4)%nat j eq_refl H) as [H1 [H2 H3]].
        replace (j - k)%nat with (S (S (S (S (j - (k + 4)%nat))))) by lia.
        split; [lia | split; [simpl; lia|]]. simpl. rewrite Ea, El, E1, Ew, E2, Ew3, E3.
        exact H3.
Qed.

(** Extra: when [value_text] fails on invalid UTF-8, the reported
    [valid_up_to] index lies inside the text before the nul, and the bytes
    before it decode: [to_str] accepts that prefix. *)
Theorem value_text_utf8_error_prefix (vh : ValueHost) (value : ptr) (s rest : str) (i : nat) :
  vh_text vh value = Some (s ++ nul :: rest) -> ~ In nul s ->
  value_text vh value = Done (Err (Err_utf8 i)) ->
  (i < List.length s)%nat /\ cstr_to_str (firstn i s) = Ok (firstn i s).
Proof.
  intros Hb Hs H. unfold value_text in H. rewrite Hb, cstr_from_ptr_app in H by exact Hs.
  unfold cstr_to_str in H. destruct (utf8_error_at s 0) as [j|] eqn:E; [|discriminate H].
  injection H as ->.
  destruct (utf8_valid_up_to s 0 i E) as [_ [H1 H2]]. rewrite Nat.sub_0_r in H1, H2.
  split; [exact H1|]. unfold cstr_to_str. rewrite H2. reflexivity.
Qed.

Lemma value_text_utf8_error_prefix_witness :
  (List.length (lit "ab") > 1)%nat /\
  cstr_to_str (firstn 2 (lit "ab" ++ [ascii_of_N 255])) = Ok (lit "ab").
Proof.
  destruct (value_text_utf8_error_prefix
              (demo_host SQLITE_TEXT (Some ((lit "ab" ++ [ascii_of_N 255]) ++ [nul])))
              0 (lit "ab" ++ [ascii_of_N 255]) [] 2 eq_refl) as [H1 H2].
  - vm_compute. intros [E|[E|[E|[]]]]; discriminate E.
  - vm_compute. reflexivity.
  - split; [simpl in H1 |- *; lia | exact H2].
Defined.
